(** * Secret lookup of types-publisher ([src/lib/secrets.ts])

    A shallow embedding of the [Secret] enumeration, of [allSecrets] and of
    [getSecret], and the properties of them that the design document states.

    - JavaScript strings are [string]s; the only strings the module builds
      are ASCII.
    - A [Date] is its time value, a [Z] (what [<] compares).
    - [getSecret] is an [async] function: a [throw] and a rejected [await]
      both end it with the promise rejected.  It is embedded in a small
      monad that carries the outcome and the trace of what the call did
      (console output and the requests it handed to the vault client). *)

From Stdlib Require Import List String Ascii ZArith NArith Bool Lia.
From Stdlib Require Import Numbers.DecimalString.
From Stdlib Require Import Sorting.Sorted Sorting.Permutation.
Import ListNotations.

Local Open Scope string_scope.
Local Open Scope list_scope.

(* ================================================================== *)
(** ** String primitives of the runtime *)

Module JsString.

(** [c] is one of [A]..[Z]. *)
Definition isUpper (c : ascii) : bool :=
  let n := nat_of_ascii c in (65 <=? n)%nat && (n <=? 90)%nat.

(** The lower-case mapping of one code unit, on ASCII: the only strings
    the module puts in lower case are the names of the enumeration. *)
Definition lowerChar (c : ascii) : ascii :=
  if isUpper c then ascii_of_nat (nat_of_ascii c + 32) else c.

(** [String.prototype.toLowerCase]. *)
Fixpoint toLowerCase (s : string) : string :=
  match s with
  | EmptyString => EmptyString
  | String c s' => String (lowerChar c) (toLowerCase s')
  end.

(** [s.replace(/c/g, d)] for a pattern that is the single character [c]
    and a replacement that is the single character [d]. *)
Fixpoint replaceAll (c d : ascii) (s : string) : string :=
  match s with
  | EmptyString => EmptyString
  | String x s' =>
      String (if Ascii.eqb x c then d else x) (replaceAll c d s')
  end.

(** [s.split(sep)] for a separator of one character.  The result always
    has at least one element: the empty string splits into [[""]]. *)
Fixpoint split (sep : ascii) (s : string) : list string :=
  match s with
  | EmptyString => [EmptyString]
  | String x s' =>
      if Ascii.eqb x sep then EmptyString :: split sep s'
      else match split sep s' with
           | seg :: segs => String x seg :: segs
           | [] => [String x EmptyString]
           end
  end.

(** [c] occurs in [s]. *)
Fixpoint occurs (c : ascii) (s : string) : bool :=
  match s with
  | EmptyString => false
  | String x s' => Ascii.eqb x c || occurs c s'
  end.

(** No character of [s] is an upper-case letter. *)
Fixpoint noUpper (s : string) : bool :=
  match s with
  | EmptyString => true
  | String x s' => negb (isUpper x) && noUpper s'
  end.

End JsString.

(* ================================================================== *)
(** ** Objects with ordered properties, and the compiled enumeration *)

(** A property key is an array index (a canonical numeric string such as
    ["0"]) or any other string. *)
Inductive PropKey : Type :=
| Index (i : N)
| Name (s : string).

(** The values the enumeration object holds. *)
Inductive JsVal : Type :=
| Num (n : Z)
| Str (s : string).

Definition PropKey_eqb (a b : PropKey) : bool :=
  match a, b with
  | Index i, Index j => N.eqb i j
  | Name s, Name t => String.eqb s t
  | _, _ => false
  end.

(** An object: its own properties in the order they were created. *)
Definition JsObject : Type := list (PropKey * JsVal).

(** [obj[k]]: [None] is [undefined]. *)
Fixpoint getProp (obj : JsObject) (k : PropKey) : option JsVal :=
  match obj with
  | [] => None
  | (k', v) :: rest => if PropKey_eqb k' k then Some v else getProp rest k
  end.

(** [obj[k] = v]: an existing property keeps its place. *)
Fixpoint setProp (obj : JsObject) (k : PropKey) (v : JsVal) : JsObject :=
  match obj with
  | [] => [(k, v)]
  | (k', v') :: rest =>
      if PropKey_eqb k' k then (k, v) :: rest
      else (k', v') :: setProp rest k v
  end.

(** Insertion of an index into an ascending list of indices. *)
Fixpoint insertIndex (i : N) (l : list N) : list N :=
  match l with
  | [] => [i]
  | j :: l' => if N.leb i j then i :: j :: l' else j :: insertIndex i l'
  end.

(** [Object.keys(obj)]: the array indices in ascending numeric order, then
    the other keys in creation order. *)
Definition Object_keys (obj : JsObject) : list PropKey :=
  let indices :=
    fold_right (fun p acc => match fst p with
                             | Index i => insertIndex i acc
                             | Name _ => acc
                             end) [] obj in
  let names :=
    filter (fun k => match k with Name _ => true | Index _ => false end)
           (map fst obj) in
  map Index indices ++ names.

(** The members of [enum Secret], in declaration order. *)
Inductive Secret : Type :=
| AZURE_STORAGE_ACCESS_KEY
| GITHUB_ACCESS_TOKEN
| GITHUB_SECRET
| NPM_TOKEN.

(** The name of a member, as declared. *)
Definition Secret_name (s : Secret) : string :=
  match s with
  | AZURE_STORAGE_ACCESS_KEY => "AZURE_STORAGE_ACCESS_KEY"
  | GITHUB_ACCESS_TOKEN => "GITHUB_ACCESS_TOKEN"
  | GITHUB_SECRET => "GITHUB_SECRET"
  | NPM_TOKEN => "NPM_TOKEN"
  end.

(** The members in declaration order. *)
Definition Secret_members : list Secret :=
  [ AZURE_STORAGE_ACCESS_KEY; GITHUB_ACCESS_TOKEN; GITHUB_SECRET; NPM_TOKEN ].

(** The number a member is at run time: no member has an initializer, so
    they count up from 0. *)
Definition Secret_value (s : Secret) : Z :=
  match s with
  | AZURE_STORAGE_ACCESS_KEY => 0
  | GITHUB_ACCESS_TOKEN => 1
  | GITHUB_SECRET => 2
  | NPM_TOKEN => 3
  end%Z.

(** What the compiler emits for a numeric enum, one statement per member:
    [E[E["NAME"] = n] = "NAME"], which sets the forward property first and
    the reverse property second. *)
Fixpoint emitEnum (names : list string) (next : N) (obj : JsObject)
  : JsObject :=
  match names with
  | [] => obj
  | name :: rest =>
      let obj1 := setProp obj (Name name) (Num (Z.of_N next)) in
      let obj2 := setProp obj1 (Index next) (Str name) in
      emitEnum rest (N.succ next) obj2
  end.

(** The run-time object [Secret]. *)
Definition Secret_object : JsObject :=
  emitEnum (map Secret_name Secret_members) 0 [].

(** Modelled from the spec: [mapDefined] of [../util/util] is not among the
    sources.  The design document says the module enumerates the fixed set
    of secrets by reflecting over the enumeration's keys; the call site
    maps every key to a number or [undefined] and types the result
    [Secret[]], so [mapDefined] maps in order and leaves out the
    [undefined] results. *)
Fixpoint mapDefined {T U : Type} (arr : list T) (mapper : T -> option U)
  : list U :=
  match arr with
  | [] => []
  | a :: rest =>
      match mapper a with
      | Some res => res :: mapDefined rest mapper
      | None => mapDefined rest mapper
      end
  end.

(** [allSecrets]: the callback keeps a value when [typeof value] is
    ["number"]. *)
Definition allSecrets : list Z :=
  mapDefined (Object_keys Secret_object)
             (fun key => match getProp Secret_object key with
                         | Some (Num value) => Some value
                         | Some (Str _) | None => None
                         end).


(** The property key a number names: [obj[n]] converts [n] to a string,
    which is an array index when [n] is a non-negative integer. *)
Definition keyOfNumber (n : Z) : PropKey :=
  match n with
  | Zneg p => Name ("-" ++ NilZero.string_of_uint (Pos.to_uint p))
  | _ => Index (Z.to_N n)
  end.

(* ================================================================== *)
(** ** [Array.prototype.sort] *)

Module JsArray.
Section Sort.
Context {A : Type} (comparefn : A -> A -> Z).

(** One pass of the engine's insertion sort.  [revPrefix] is the part
    already in order, nearest element first (the loop walks [j] down
    from [i - 1]): while [comparefn(tmp, element) > 0] the element
    [tmp] moves one place up, and [element] lands where the loop
    breaks. *)
Fixpoint insertBack (element : A) (revPrefix : list A) : list A :=
  match revPrefix with
  | [] => [element]
  | tmp :: before =>
      if (0 <? comparefn tmp element)%Z
      then tmp :: insertBack element before
      else element :: revPrefix
  end.

(** [a.sort(comparefn)], as the insertion sort V8 runs on short arrays.
    The language leaves the order to the engine when [comparefn] is not
    a consistent comparison, and the comparator of [getSecret] is not
    (it never answers 0).  For time stamps that are pairwise distinct the
    choice is immaterial: see [JsArrayFacts.sort_of_any_engine]. *)
Definition sort (a : list A) : list A :=
  rev (fold_left (fun revPrefix element => insertBack element revPrefix)
                 a []).
End Sort.
End JsArray.

(* ================================================================== *)
(** ** The vault, the identity provider and the process *)

(** [SecretAttributes], [SecretItem] and [SecretBundle] of the vault SDK, with
    the fields the module reads. *)
Record SecretAttributes : Type := { created : Z }.
Record SecretItem : Type := { id : string; attributes : SecretAttributes }.
Record SecretBundle : Type := { value : string }.

(** The challenge the vault hands to the credentials callback, and the
    identity provider's answer. *)
Record Challenge : Type := { authorization : string; resource : string }.
Record TokenResponse : Type := { tokenType : string; accessToken : string }.

(** What can be thrown, or reject a promise. *)
Inductive Thrown : Type :=
| Error (message : string)      (* [new Error(message)] *)
| TypeError                     (* the runtime's, on a property of [undefined] *)
| Fault (reason : string).      (* an error handed over by the SDKs *)

(** What a call does that the outside can see. *)
Inductive Event : Type :=
| ConsoleLog (text : string)
| ConsoleLogVersions (versions : list SecretItem)
| GetSecretVersions (vaultBaseUrl secretName : string)
| GetSecret (vaultBaseUrl secretName secretVersion : string)
| AcquireToken (authority resource clientId clientSecret : string)
| ChallengeCallback (authorizationValue : string).

(** A request to the vault or to the identity provider. *)
Definition isNetworkCall (e : Event) : bool :=
  match e with
  | GetSecretVersions _ _ | GetSecret _ _ _ | AcquireToken _ _ _ _ => true
  | ConsoleLog _ | ConsoleLogVersions _ | ChallengeCallback _ => false
  end.

Inductive Outcome (A : Type) : Type :=
| Resolved (a : A)
| Rejected (e : Thrown).
Arguments Resolved {A} a.
Arguments Rejected {A} e.

(** A computation: its outcome and the trace of its events, oldest first. *)
Definition M (A : Type) : Type := (Outcome A * list Event)%type.

Definition ret {A} (a : A) : M A := (Resolved a, []).
Definition throw {A} (e : Thrown) : M A := (Rejected e, []).
Definition emit (e : Event) : M unit := (Resolved tt, [e]).

Definition bind {A B} (m : M A) (k : A -> M B) : M B :=
  match m with
  | (Resolved a, t) => let (r, t') := k a in (r, t ++ t')
  | (Rejected e, t) => (Rejected e, t)
  end.

Notation "x <- m ;; k" := (bind m (fun x => k))
  (at level 61, m at next level, right associativity).
Notation "m ;;; k" := (bind m (fun _ => k))
  (at level 61, right associativity).

(** [await] of a request: the request is issued, and the promise either
    yields its value or rejects the caller. *)
Definition await {A} (request : Event) (answer : Thrown + A) : M A :=
  emit request ;;;
  match answer with
  | inr a => ret a
  | inl e => throw e
  end.

(** The credentials callback a [KeyVaultCredentials] wraps. *)
Definition Authenticator : Type := Challenge -> M unit.

(** A [KeyVaultClient]: the answers of the two requests the module makes. *)
Module KeyVaultClient.
Record t : Type := {
  getSecretVersions : string -> string -> Thrown + list SecretItem;
  getSecret : string -> string -> string -> Thrown + SecretBundle
}.
End KeyVaultClient.

(** Everything outside the module.  [azureKeyvault] is the constant of
    [./settings], which is not among the sources. *)
Record World : Type := {
  process_env : string -> option string;
  acquireTokenWithClientCredentials :
    string -> string -> string -> string -> Thrown + TokenResponse;
  newKeyVaultClient : Authenticator -> KeyVaultClient.t;
  azureKeyvault : string
}.

(** The same world with another environment. *)
Definition withEnv (W : World) (env : string -> option string) : World :=
  {| process_env := env;
     acquireTokenWithClientCredentials := acquireTokenWithClientCredentials W;
     newKeyVaultClient := newKeyVaultClient W;
     azureKeyvault := azureKeyvault W |}.

(* ================================================================== *)
(** ** [getSecret] *)

(** A value of [process.env] in a condition: [undefined] and the empty
    string are falsy. *)
Definition truthy (v : option string) : bool :=
  match v with
  | Some s => negb (String.eqb s "")
  | None => false
  end.

(** [a && b]. *)
Definition js_and (a b : option string) : option string :=
  if truthy a then b else a.

Definition mustSet : string :=
  "Must set the TYPES_PUBLISHER_CLIENT_ID and TYPES_PUBLISHER_CLIENT_SECRET environment variables.".

(** The one error the module raises itself (line 46): its configuration
    error. *)
Definition ConfigurationError : Thrown := Error mustSet.

(** The callback given to [KeyVaultCredentials]: it asks the identity
    provider named by the challenge for a token; on an error it throws, and
    otherwise it calls [callback(undefined, `${tokenType} ${accessToken}`)]. *)
Definition authenticator (W : World) (clientId clientSecret : string)
  : Authenticator :=
  fun challenge =>
    emit (AcquireToken (authorization challenge) (resource challenge)
                       clientId clientSecret) ;;;
    match acquireTokenWithClientCredentials W
            (authorization challenge) (resource challenge)
            clientId clientSecret with
    | inl error => throw error
    | inr tokenResponse =>
        emit (ChallengeCallback
                (tokenType tokenResponse ++ " " ++ accessToken tokenResponse))
    end.

(** [Secret[secret].toLowerCase().replace(/_/g, "-")]. *)
Definition azureSecretName (secret : Secret) : M string :=
  match getProp Secret_object (keyOfNumber (Secret_value secret)) with
  | Some (Str name) =>
      ret (JsString.replaceAll "_" "-" (JsString.toLowerCase name))
  | Some (Num _) | None => throw TypeError
  end.

(** The name a member is looked up by: line 63 at the member's name. *)
Definition derivedName (secret : Secret) : string :=
  JsString.replaceAll "_" "-" (JsString.toLowerCase (Secret_name secret)).

(** The comparator of the sort. *)
Definition byCreatedDesc (a b : SecretItem) : Z :=
  if (created (attributes a) <? created (attributes b))%Z then 1%Z
  else (-1)%Z.

(** Older or as old. *)
Definition notNewer (a b : SecretItem) : Prop :=
  (created (attributes a) <= created (attributes b))%Z.

(** [urlParts[urlParts.length - 1]] of [id.split("/")]. *)
Definition lastSegment (id : string) : string :=
  let urlParts := JsString.split "/" id in
  last urlParts EmptyString.

(** Lines 62 to 70 of [getSecret]: what it does once it has a client. *)
Definition getLatest (W : World) (client : KeyVaultClient.t)
  (secret : Secret) : M string :=
  azureSecretName <- azureSecretName secret ;;
  emit (ConsoleLog ("Getting versions for: " ++ azureSecretName)) ;;;
  versions <-
    await (GetSecretVersions (azureKeyvault W) azureSecretName)
          (KeyVaultClient.getSecretVersions client
             (azureKeyvault W) azureSecretName) ;;
  let versions := JsArray.sort byCreatedDesc versions in
  emit (ConsoleLogVersions versions) ;;;
  match nth_error versions 0 with
  | None => throw TypeError
  | Some newest =>
      let latest := lastSegment (id newest) in
      bundle <-
        await (GetSecret (azureKeyvault W) azureSecretName latest)
              (KeyVaultClient.getSecret client
                 (azureKeyvault W) azureSecretName latest) ;;
      ret (value bundle)
  end.

(** [getSecret]: lines 43 to 60, then [getLatest]. *)
Definition getSecret (W : World) (secret : Secret) : M string :=
  let clientId := process_env W "TYPES_PUBLISHER_CLIENT_ID" in
  let clientSecret := process_env W "TYPES_PUBLISHER_CLIENT_SECRET" in
  if negb (truthy (js_and clientId clientSecret))
  then throw ConfigurationError
  else
    match clientId, clientSecret with
    | Some clientId, Some clientSecret =>
        let credentials := authenticator W clientId clientSecret in
        let client := newKeyVaultClient W credentials in
        getLatest W client secret
    | _, _ => throw ConfigurationError (* not reached: both are truthy *)
    end.

(* ------------------------------------------------------------------ *)
(** Sample worlds. *)

Definition sampleVersions : list SecretItem :=
  [ {| id := "https://kv.example/secrets/npm-token/v1";
       attributes := {| created := 100 |} |};
    {| id := "https://kv.example/secrets/npm-token/v3";
       attributes := {| created := 300 |} |};
    {| id := "https://kv.example/secrets/npm-token/v2";
       attributes := {| created := 200 |} |} ].

(** A client that lists [versions] for every name, and whose values say
    which version of which name was asked for. *)
Definition sampleClient (versions : list SecretItem) : KeyVaultClient.t :=
  {| KeyVaultClient.getSecretVersions := fun _ _ => inr versions;
     KeyVaultClient.getSecret :=
       fun _ name version => inr {| value := name ++ "@" ++ version |} |}.

(** A client whose every request is refused. *)
Definition refusedClient (reason : string) : KeyVaultClient.t :=
  {| KeyVaultClient.getSecretVersions := fun _ _ => inl (Fault reason);
     KeyVaultClient.getSecret := fun _ _ _ => inl (Fault reason) |}.

Definition sampleChallenge : Challenge :=
  {| authorization := "https://login.example/tenant";
     resource := "https://vault.example" |}.

(** An identity provider that knows one client. *)
Definition sampleProvider (authority rsrc clientId clientSecret : string)
  : Thrown + TokenResponse :=
  if String.eqb clientId "id-1" && String.eqb clientSecret "s3cret"
  then inr {| tokenType := "Bearer"; accessToken := "abc" |}
  else inl (Fault "invalid_client").

(** A world whose vault challenges the client once and serves it when the
    callback answers with the right header. *)
Definition sampleWorld (env : string -> option string)
  (versions : list SecretItem) : World :=
  {| process_env := env;
     acquireTokenWithClientCredentials := sampleProvider;
     newKeyVaultClient :=
       fun credentials =>
         match credentials sampleChallenge with
         | (Resolved _, [AcquireToken _ _ _ _; ChallengeCallback "Bearer abc"]) =>
             sampleClient versions
         | _ => refusedClient "401"
         end;
     azureKeyvault := "https://kv.example" |}.

Definition envOf (bindings : list (string * string)) : string -> option string :=
  fun name =>
    match find (fun b => String.eqb (fst b) name) bindings with
    | Some b => Some (snd b)
    | None => None
    end.

Definition goodEnv : string -> option string :=
  envOf [ ("TYPES_PUBLISHER_CLIENT_ID", "id-1");
          ("TYPES_PUBLISHER_CLIENT_SECRET", "s3cret") ].

(** The same values under the names without the prefix. *)
Definition shortNamesEnv : string -> option string :=
  envOf [ ("CLIENT_ID", "id-1"); ("CLIENT_SECRET", "s3cret") ].

(** The identifier set, the secret set to the empty string. *)
Definition emptySecretEnv : string -> option string :=
  envOf [ ("TYPES_PUBLISHER_CLIENT_ID", "id-1");
          ("TYPES_PUBLISHER_CLIENT_SECRET", "") ].

(** Credentials the provider does not know. *)
Definition strangerEnv : string -> option string :=
  envOf [ ("TYPES_PUBLISHER_CLIENT_ID", "id-2");
          ("TYPES_PUBLISHER_CLIENT_SECRET", "s3cret") ].

(* ------------------------------------------------------------------ *)
(** The enumeration and line 63, taken more widely. *)



(** Line 63 at a number, which is what [secret] is at run time:
    [azureSecretName secret] is [azureSecretNameOf (Secret_value secret)]. *)
Definition azureSecretNameOf (n : Z) : M string :=
  match getProp Secret_object (keyOfNumber n) with
  | Some (Str name) =>
      ret (JsString.replaceAll "_" "-" (JsString.toLowerCase name))
  | Some (Num _) | None => throw TypeError
  end.

(** A variable of the environment that the guard of line 45 takes as
    missing: unset, or set to the empty string. *)
Definition missing (v : option string) : Prop := v = None \/ v = Some "".

(* ================================================================== *)
(** ** Facts about the string primitives *)

Module JsStringFacts.
Import JsString.

Lemma lowerChar_not_upper (c : ascii) : isUpper (lowerChar c) = false.
Proof.
  destruct c as [[] [] [] [] [] [] [] []]; reflexivity.
Qed.

Lemma lowerChar_fixed (c : ascii) : isUpper c = false -> lowerChar c = c.
Proof.
  unfold lowerChar. now intros ->.
Qed.

Lemma toLowerCase_noUpper (s : string) : noUpper (toLowerCase s) = true.
Proof.
  induction s as [| c s IH]; simpl; [reflexivity |].
  now rewrite lowerChar_not_upper, IH.
Qed.

Lemma noUpper_toLowerCase (s : string) :
  noUpper s = true -> toLowerCase s = s.
Proof.
  induction s as [| c s IH]; simpl; [reflexivity |].
  intros H. apply andb_true_iff in H as [Hc Hs].
  apply negb_true_iff in Hc.
  now rewrite (lowerChar_fixed _ Hc), IH.
Qed.

Lemma replaceAll_noUpper (c d : ascii) (s : string) :
  isUpper d = false -> noUpper s = true -> noUpper (replaceAll c d s) = true.
Proof.
  intros Hd. induction s as [| x s IH]; simpl; [reflexivity |].
  intros H. apply andb_true_iff in H as [Hx Hs].
  rewrite (IH Hs), andb_true_r.
  destruct (Ascii.eqb x c); [now rewrite Hd | exact Hx].
Qed.

Lemma replaceAll_removes (c d : ascii) (s : string) :
  c <> d -> occurs c (replaceAll c d s) = false.
Proof.
  intros Hcd. induction s as [| x s IH]; simpl; [reflexivity |].
  rewrite IH, orb_false_r.
  destruct (Ascii.eqb x c) eqn:E; [| exact E].
  apply Ascii.eqb_neq. congruence.
Qed.

Lemma split_nonempty (sep : ascii) (s : string) : split sep s <> [].
Proof.
  destruct s as [| x s]; simpl; [discriminate |].
  destruct (Ascii.eqb x sep); [discriminate |].
  destruct (split sep s); discriminate.
Qed.

(** No piece holds the separator. *)
Lemma split_pieces (sep : ascii) (s : string) :
  Forall (fun piece => occurs sep piece = false) (split sep s).
Proof.
  induction s as [| x s IH]; simpl.
  - constructor; [reflexivity | constructor].
  - destruct (Ascii.eqb x sep) eqn:E.
    + constructor; [reflexivity | exact IH].
    + destruct (split sep s) as [| piece pieces].
      * constructor; [simpl; now rewrite E | constructor].
      * inversion IH as [| ? ? Hp Hps]; subst.
        constructor; [simpl; now rewrite E, Hp | exact Hps].
Qed.

(** Joining the pieces with the separator gives the string back. *)
Lemma concat_split (sep : ascii) (s : string) :
  String.concat (String sep EmptyString) (split sep s) = s.
Proof.
  induction s as [| x s IH]; simpl; [reflexivity |].
  destruct (Ascii.eqb x sep) eqn:E.
  - apply Ascii.eqb_eq in E; subst x.
    destruct (split sep s) as [| piece pieces] eqn:Es.
    + now destruct (split_nonempty sep s).
    + simpl. now rewrite <- IH.
  - destruct (split sep s) as [| piece pieces] eqn:Es.
    + now destruct (split_nonempty sep s).
    + destruct pieces; simpl in *; now rewrite <- IH.
Qed.

(** The last piece, when the separator does not occur. *)
Lemma split_without (sep : ascii) (s : string) :
  occurs sep s = false -> split sep s = [s].
Proof.
  induction s as [| x s IH]; simpl; [reflexivity |].
  intros H. apply orb_false_iff in H as [Hx Hs].
  now rewrite Hx, (IH Hs).
Qed.

Lemma occurs_app_sep (sep : ascii) (pre post : string) :
  occurs sep (pre ++ String sep post) = true.
Proof.
  induction pre as [| y pre IH]; simpl.
  - now rewrite Ascii.eqb_refl.
  - rewrite IH. apply orb_true_r.
Qed.

(** A split into one piece: the separator does not occur. *)
Lemma split_single (sep : ascii) (s piece : string) :
  split sep s = [piece] -> s = piece /\ occurs sep s = false.
Proof.
  intros E.
  pose proof (concat_split sep s) as C.
  pose proof (split_pieces sep s) as P.
  rewrite E in C, P. simpl in C. subst piece.
  split; [reflexivity | now inversion P].
Qed.

Lemma last_split_app (sep : ascii) (pre post : string) :
  last (split sep (pre ++ String sep post)) EmptyString
  = last (split sep post) EmptyString.
Proof.
  induction pre as [| x pre IH]; simpl.
  - rewrite Ascii.eqb_refl.
    destruct (split sep post) eqn:E; [now destruct (split_nonempty sep post) |].
    reflexivity.
  - destruct (Ascii.eqb x sep).
    + destruct (split sep (pre ++ String sep post)) eqn:E;
        [now destruct (split_nonempty sep (pre ++ String sep post)) |].
      exact IH.
    + destruct (split sep (pre ++ String sep post)) as [| piece pieces] eqn:E;
        [now destruct (split_nonempty sep (pre ++ String sep post)) |].
      destruct pieces as [| p2 pieces].
      * (* one piece only: impossible, the separator is in the string *)
        exfalso. apply split_single in E as [_ E].
        rewrite occurs_app_sep in E. discriminate.
      * exact IH.
Qed.

(** The last piece is what follows the last separator. *)
Lemma last_split_after (sep : ascii) (pre post : string) :
  occurs sep post = false ->
  last (split sep (pre ++ String sep post)) EmptyString = post.
Proof.
  intros H. now rewrite last_split_app, (split_without _ _ H).
Qed.

(** Every string is its last piece, or something, the separator and its
    last piece. *)
Lemma last_split_cases (sep : ascii) (s : string) :
  let piece := last (split sep s) EmptyString in
  occurs sep piece = false /\
  ((occurs sep s = false /\ s = piece) \/
   exists pre : string, s = (pre ++ String sep piece)%string).
Proof.
  induction s as [| x s IH]; simpl.
  - split; [reflexivity | left; split; reflexivity].
  - destruct IH as [Hno IH].
    destruct (split sep s) as [| piece pieces] eqn:Es;
      [now destruct (split_nonempty sep s) |].
    destruct (Ascii.eqb x sep) eqn:E.
    + apply Ascii.eqb_eq in E; subst x.
      change (last (EmptyString :: piece :: pieces) EmptyString)
        with (last (piece :: pieces) EmptyString).
      split; [exact Hno |]. right.
      destruct IH as [[_ ->] | [pre ->]].
      * now exists EmptyString.
      * now exists (String sep pre).
    + destruct pieces as [| p2 pieces].
      * simpl in *. destruct IH as [[Hs ->] | [pre ->]].
        -- split; [simpl; now rewrite E, Hs |].
           left. split; [now rewrite Hs | reflexivity].
        -- exfalso. apply split_single in Es as [_ Es].
           rewrite occurs_app_sep in Es. discriminate.
      * change (last (String x piece :: p2 :: pieces) EmptyString)
          with (last (p2 :: pieces) EmptyString).
        change (last (piece :: p2 :: pieces) EmptyString)
          with (last (p2 :: pieces) EmptyString) in Hno, IH.
        split; [exact Hno |]. right.
        destruct IH as [[Hs Heq] | [pre ->]].
        -- exfalso.
           pose proof (split_without sep s Hs) as W. rewrite Es in W.
           discriminate.
        -- now exists (String x pre).
Qed.

End JsStringFacts.

(* ================================================================== *)
(** ** Facts about the sort *)

Module JsArrayFacts.
Import JsArray.

Section AnyComparator.
Context {A : Type} (comparefn : A -> A -> Z).

Lemma insertBack_perm (element : A) (revPrefix : list A) :
  Permutation (insertBack comparefn element revPrefix) (element :: revPrefix).
Proof.
  induction revPrefix as [| tmp before IH]; simpl; [reflexivity |].
  destruct (0 <? comparefn tmp element)%Z; [| reflexivity].
  rewrite IH. apply perm_swap.
Qed.

Lemma passes_perm (a revPrefix : list A) :
  Permutation
    (fold_left (fun p element => insertBack comparefn element p) a revPrefix)
    (a ++ revPrefix).
Proof.
  revert revPrefix. induction a as [| x a IH]; intros p; simpl; [reflexivity |].
  rewrite IH, insertBack_perm. symmetry. apply Permutation_middle.
Qed.

(** Whatever the comparator, the sort only reorders. *)
Lemma sort_perm (a : list A) : Permutation (sort comparefn a) a.
Proof.
  unfold sort. rewrite <- Permutation_rev, passes_perm.
  now rewrite app_nil_r.
Qed.

Lemma sort_nil_iff (a : list A) : sort comparefn a = [] <-> a = [].
Proof.
  split; intros H.
  - apply Permutation_nil. rewrite <- H. apply sort_perm.
  - now subst.
Qed.

End AnyComparator.

Lemma StronglySorted_snoc {A : Type} (R : A -> A -> Prop) (l : list A)
  (x : A) :
  StronglySorted R l -> Forall (fun y => R y x) l ->
  StronglySorted R (l ++ [x]).
Proof.
  induction 1 as [| a l Hl IH Ha]; intros Hx; simpl.
  - repeat constructor.
  - inversion Hx; subst. constructor; [auto |].
    apply Forall_app. split; [exact Ha | repeat constructor; assumption].
Qed.

Lemma StronglySorted_rev {A : Type} (R : A -> A -> Prop) (l : list A) :
  StronglySorted R l -> StronglySorted (fun a b => R b a) (rev l).
Proof.
  induction 1 as [| a l Hl IH Ha]; simpl; [constructor |].
  apply StronglySorted_snoc; [exact IH |].
  apply Forall_rev. exact Ha.
Qed.

Lemma insertBack_sorted (element : SecretItem) (revPrefix : list SecretItem) :
  StronglySorted notNewer revPrefix ->
  StronglySorted notNewer (insertBack byCreatedDesc element revPrefix).
Proof.
  induction 1 as [| tmp before Hb IH Htmp]; simpl.
  - repeat constructor.
  - unfold byCreatedDesc at 1.
    destruct (created (attributes tmp) <? created (attributes element))%Z eqn:E;
      simpl.
    + apply Z.ltb_lt in E. constructor; [exact IH |].
      eapply Permutation_Forall;
        [symmetry; apply insertBack_perm |].
      constructor; [unfold notNewer; lia | exact Htmp].
    + apply Z.ltb_ge in E.
      constructor; [constructor; assumption |].
      constructor; [exact E |].
      eapply Forall_impl; [| exact Htmp].
      unfold notNewer. intros; lia.
Qed.

Lemma passes_sorted (a revPrefix : list SecretItem) :
  StronglySorted notNewer revPrefix ->
  StronglySorted notNewer
    (fold_left (fun p element => insertBack byCreatedDesc element p)
               a revPrefix).
Proof.
  revert revPrefix. induction a as [| x a IH]; intros p Hp; simpl;
    [exact Hp |].
  apply IH, insertBack_sorted, Hp.
Qed.

(** The sorted array runs from the newest version to the oldest. *)
Lemma sort_descending (a : list SecretItem) :
  StronglySorted (fun x y => notNewer y x) (sort byCreatedDesc a).
Proof.
  unfold sort. apply StronglySorted_rev, passes_sorted. constructor.
Qed.

(** Its first element is a version of the listing, and none is newer. *)
Lemma sort_head_newest (a : list SecretItem) (newest : SecretItem)
  (rest : list SecretItem) :
  sort byCreatedDesc a = newest :: rest ->
  In newest a /\ forall v, In v a -> notNewer v newest.
Proof.
  intros E.
  pose proof (sort_perm byCreatedDesc a) as P.
  pose proof (sort_descending a) as S.
  rewrite E in P, S. split.
  - apply (Permutation_in _ P). now left.
  - intros v Hv. apply (Permutation_in _ (Permutation_sym P)) in Hv.
    destruct Hv as [<- | Hv]; [unfold notNewer; lia |].
    inversion S as [| ? ? _ Hall]; subst.
    rewrite Forall_forall in Hall. now apply Hall.
Qed.

(** Two arrangements of the same elements in the same strict order are the
    same array. *)
Lemma ordered_arrangement_unique {A : Type} (R : A -> A -> Prop)
  (l1 l2 : list A) :
  (forall x y, In x l1 -> In y l1 -> R x y -> R y x -> x = y) ->
  StronglySorted R l1 -> StronglySorted R l2 -> Permutation l1 l2 ->
  l1 = l2.
Proof.
  revert l2. induction l1 as [| a l1 IH]; intros l2 Hanti S1 S2 P.
  - symmetry. now apply Permutation_nil.
  - destruct l2 as [| b l2];
      [symmetry in P; now apply Permutation_nil_cons in P |].
    inversion S1 as [| ? ? S1' Ha]; subst.
    inversion S2 as [| ? ? S2' Hb]; subst.
    rewrite Forall_forall in Ha, Hb.
    assert (a = b) as ->.
    { assert (In a (b :: l2)) as Ia
        by (apply (Permutation_in _ P); now left).
      assert (In b (a :: l1)) as Ib
        by (apply (Permutation_in _ (Permutation_sym P)); now left).
      destruct Ia as [-> | Ia]; [reflexivity |].
      destruct Ib as [-> | Ib]; [reflexivity |].
      apply Hanti; [now left | now right | now apply Ha | now apply Hb]. }
    f_equal. apply IH; auto.
    + intros x y Hx Hy. apply Hanti; now right.
    + now apply Permutation_cons_inv in P.
Qed.

(** The engine does not matter when the time stamps are distinct: every
    arrangement of the listing that the comparator accepts (it answers a
    negative number for each element against each later one) is the array
    the insertion sort gives. *)
Lemma sort_of_any_engine (versions sorted : list SecretItem) :
  NoDup (map (fun v => created (attributes v)) versions) ->
  Permutation sorted versions ->
  StronglySorted (fun x y => (byCreatedDesc x y < 0)%Z) sorted ->
  sorted = sort byCreatedDesc versions.
Proof.
  intros ND P S.
  apply (ordered_arrangement_unique (fun x y => notNewer y x)).
  - intros x y Hx Hy Hxy Hyx. unfold notNewer in *.
    apply (Permutation_in _ P) in Hx, Hy.
    assert (created (attributes x) = created (attributes y)) as E by lia.
    clear - ND Hx Hy E.
    induction versions as [| v versions IH]; [contradiction |].
    simpl in ND. inversion ND as [| ? ? Hv ND']; subst.
    destruct Hx as [-> | Hx], Hy as [-> | Hy]; auto.
    + exfalso. apply Hv. rewrite E.
      now apply (in_map (fun v => created (attributes v))).
    + exfalso. apply Hv. rewrite <- E.
      now apply (in_map (fun v => created (attributes v))).
  - eapply StronglySorted_ind with (P := StronglySorted _);
      [constructor | | exact S].
    intros a l _ Hl Ha. constructor; [exact Hl |].
    eapply Forall_impl; [| exact Ha].
    intros b. unfold byCreatedDesc, notNewer.
    destruct (created (attributes a) <? created (attributes b))%Z eqn:E;
      [lia | intros _; now apply Z.ltb_ge in E].
  - apply sort_descending.
  - rewrite P. symmetry. apply sort_perm.
Qed.

End JsArrayFacts.

(* ================================================================== *)
(** ** Facts about the enumeration and about a run of [getSecret] *)

Lemma Secret_reverse (secret : Secret) :
  getProp Secret_object (keyOfNumber (Secret_value secret))
  = Some (Str (Secret_name secret)).
Proof.
  destruct secret; reflexivity.
Qed.

Lemma Secret_forward (secret : Secret) :
  getProp Secret_object (Name (Secret_name secret))
  = Some (Num (Secret_value secret)).
Proof.
  destruct secret; reflexivity.
Qed.

(** The reverse lookup never fails on a member. *)
Lemma azureSecretName_resolved (secret : Secret) :
  azureSecretName secret = ret (derivedName secret).
Proof.
  unfold azureSecretName. now rewrite Secret_reverse.
Qed.

(** The guard of line 45 fires. *)
Lemma getSecret_guarded (W : World) (secret : Secret) :
  truthy (process_env W "TYPES_PUBLISHER_CLIENT_ID") = false \/
  truthy (process_env W "TYPES_PUBLISHER_CLIENT_SECRET") = false ->
  getSecret W secret = (Rejected ConfigurationError, []).
Proof.
  unfold getSecret, js_and.
  intros [H | H].
  - now rewrite !H.
  - destruct (truthy (process_env W "TYPES_PUBLISHER_CLIENT_ID")) eqn:E;
      [now rewrite H | now rewrite E].
Qed.

(** Closes a goal [getSecret W secret = (Rejected ConfigurationError, [])]
    from a hypothesis [H] that gives one of the two variables a falsy
    value. *)
Ltac guard_fires H :=
  apply getSecret_guarded; destruct H as [H | H]; rewrite H; auto.

(** The guard of line 45 passes. *)
Lemma getSecret_passes (W : World) (secret : Secret)
  (clientId clientSecret : string) :
  process_env W "TYPES_PUBLISHER_CLIENT_ID" = Some clientId ->
  process_env W "TYPES_PUBLISHER_CLIENT_SECRET" = Some clientSecret ->
  clientId <> "" -> clientSecret <> "" ->
  getSecret W secret
  = getLatest W (newKeyVaultClient W (authenticator W clientId clientSecret))
              secret.
Proof.
  intros Hi Hs Ni Ns.
  apply String.eqb_neq in Ni, Ns.
  unfold getSecret, js_and. rewrite Hi, Hs.
  unfold truthy. rewrite Ni. simpl. now rewrite Ns.
Qed.

(** Of the environment only the two variables matter. *)
Lemma getSecret_reads_two_variables (W : World)
  (env : string -> option string) (secret : Secret) :
  env "TYPES_PUBLISHER_CLIENT_ID"
  = process_env W "TYPES_PUBLISHER_CLIENT_ID" ->
  env "TYPES_PUBLISHER_CLIENT_SECRET"
  = process_env W "TYPES_PUBLISHER_CLIENT_SECRET" ->
  getSecret (withEnv W env) secret = getSecret W secret.
Proof.
  intros Hi Hs. unfold getSecret. simpl process_env.
  rewrite Hi, Hs. reflexivity.
Qed.

Section Run.
Variable W : World.
Variable secret : Secret.
Variable client : KeyVaultClient.t.

(** The listing is refused. *)
Lemma getLatest_refused (e : Thrown) :
  KeyVaultClient.getSecretVersions client (azureKeyvault W)
                                   (derivedName secret) = inl e ->
  getLatest W client secret
  = (Rejected e,
     [ ConsoleLog ("Getting versions for: " ++ derivedName secret);
       GetSecretVersions (azureKeyvault W) (derivedName secret) ]).
Proof.
  intros H. unfold getLatest. rewrite azureSecretName_resolved. simpl.
  now rewrite H.
Qed.

(** The listing is empty. *)
Lemma getLatest_empty :
  KeyVaultClient.getSecretVersions client (azureKeyvault W)
                                   (derivedName secret) = inr [] ->
  getLatest W client secret
  = (Rejected TypeError,
     [ ConsoleLog ("Getting versions for: " ++ derivedName secret);
       GetSecretVersions (azureKeyvault W) (derivedName secret);
       ConsoleLogVersions [] ]).
Proof.
  intros H. unfold getLatest. rewrite azureSecretName_resolved. simpl.
  now rewrite H.
Qed.

(** The listing has versions: the value of the first one after the sort is
    asked for, by the last segment of its [id]. *)
Lemma getLatest_fetches (versions : list SecretItem) (first : SecretItem)
  (rest : list SecretItem) :
  KeyVaultClient.getSecretVersions client (azureKeyvault W)
                                   (derivedName secret) = inr versions ->
  JsArray.sort byCreatedDesc versions = first :: rest ->
  getLatest W client secret
  = (match KeyVaultClient.getSecret client (azureKeyvault W)
             (derivedName secret) (lastSegment (id first)) with
     | inr bundle => Resolved (value bundle)
     | inl e => Rejected e
     end,
     [ ConsoleLog ("Getting versions for: " ++ derivedName secret);
       GetSecretVersions (azureKeyvault W) (derivedName secret);
       ConsoleLogVersions (first :: rest);
       GetSecret (azureKeyvault W) (derivedName secret)
                 (lastSegment (id first)) ]).
Proof.
  intros H E. unfold getLatest. rewrite azureSecretName_resolved. simpl.
  rewrite H. simpl. rewrite E. simpl.
  destruct (KeyVaultClient.getSecret client (azureKeyvault W)
              (derivedName secret) (lastSegment (id first))); reflexivity.
Qed.

End Run.

(** A version that is not newer than another one, and differs from it in
    a listing without two equal time stamps, is older. *)
Lemma distinct_created_older (versions : list SecretItem) (v w : SecretItem) :
  NoDup (map (fun x => created (attributes x)) versions) ->
  In v versions -> In w versions -> v <> w ->
  notNewer v w ->
  (created (attributes v) < created (attributes w))%Z.
Proof.
  intros ND Hv Hw Hne Hle. unfold notNewer in Hle.
  assert (created (attributes v) <> created (attributes w)) as Hc; [| lia].
  clear Hle. intros Heq. apply Hne. clear Hne.
  induction versions as [| x versions IH]; [contradiction |].
  simpl in ND. inversion ND as [| ? ? Hx ND']; subst.
  destruct Hv as [-> | Hv], Hw as [-> | Hw].
  - reflexivity.
  - exfalso. apply Hx. rewrite Heq.
    now apply (in_map (fun x => created (attributes x))).
  - exfalso. apply Hx. rewrite <- Heq.
    now apply (in_map (fun x => created (attributes x))).
  - now apply IH.
Qed.

(* ================================================================== *)
(** ** The enumeration and the derived names *)

(** C10. [allSecrets] holds the numbers of the members of [Secret], each
    once, in declaration order, that is 0, 1, 2, 3, and nothing else: the
    reverse keys ["0"].. ["3"], whose values are strings, leave nothing. *)
Theorem allSecrets_are_the_member_values :
  allSecrets = map Secret_value Secret_members /\
  allSecrets = [0; 1; 2; 3]%Z /\
  NoDup allSecrets /\
  (forall n : Z, In n allSecrets <-> exists member, Secret_value member = n) /\
  Object_keys Secret_object
  = map Index [0; 1; 2; 3]%N ++ map (fun m => Name (Secret_name m)) Secret_members.
Proof.
  split; [reflexivity |]. split; [reflexivity |]. split.
  - change allSecrets with [0; 1; 2; 3]%Z.
    repeat constructor; simpl; intuition discriminate.
  - split; [| reflexivity].
    intros n. change allSecrets with (map Secret_value Secret_members).
    rewrite in_map_iff. split.
    + intros [member [E _]]. now exists member.
    + intros [member E]. exists member. split; [exact E |].
      destruct member; simpl; tauto.
Qed.

(** C5. For every member the derived vault name is the member's name in
    lower case with every underscore replaced by a hyphen; it is in lower
    case and has no underscore; for AZURE_STORAGE_ACCESS_KEY it is
    "azure-storage-access-key". *)
Theorem derived_name_is_lowercase_hyphenated (secret : Secret) :
  let name :=
    JsString.replaceAll "_" "-" (JsString.toLowerCase (Secret_name secret)) in
  azureSecretName secret = ret name /\
  JsString.toLowerCase name = name /\
  JsString.noUpper name = true /\
  JsString.occurs "_" name = false /\
  azureSecretName AZURE_STORAGE_ACCESS_KEY = ret "azure-storage-access-key".
Proof.
  intros name.
  assert (JsString.noUpper name = true) as Hlow.
  { apply JsStringFacts.replaceAll_noUpper; [reflexivity |].
    apply JsStringFacts.toLowerCase_noUpper. }
  split; [apply azureSecretName_resolved |].
  split; [now apply JsStringFacts.noUpper_toLowerCase |].
  split; [exact Hlow |].
  split; [now apply JsStringFacts.replaceAll_removes | reflexivity].
Qed.

(** C9. Two distinct members of [Secret] have distinct derived vault
    names. *)
Theorem derived_names_are_distinct (a b : Secret) :
  a <> b ->
  exists nameA nameB,
    azureSecretName a = ret nameA /\ azureSecretName b = ret nameB /\
    nameA <> nameB.
Proof.
  intros Hab. exists (derivedName a), (derivedName b).
  split; [apply azureSecretName_resolved |].
  split; [apply azureSecretName_resolved |].
  destruct a, b; try discriminate; now destruct Hab.
Qed.

Lemma derived_names_are_distinct_witness :
  GITHUB_ACCESS_TOKEN <> GITHUB_SECRET /\
  exists nameA nameB,
    azureSecretName GITHUB_ACCESS_TOKEN = ret nameA /\
    azureSecretName GITHUB_SECRET = ret nameB /\ nameA <> nameB.
Proof.
  split; [discriminate |].
  apply (derived_names_are_distinct GITHUB_ACCESS_TOKEN GITHUB_SECRET).
  discriminate.
Defined.

(* ================================================================== *)
(** ** The credentials *)

(** C3. When either credential is unset the call fails with the
    configuration error before anything else happens: its trace is empty,
    so no request was issued, and the answer does not depend on the vault
    or on the identity provider. *)
Theorem unset_credentials_fail_before_any_request (W : World)
  (secret : Secret) :
  process_env W "TYPES_PUBLISHER_CLIENT_ID" = None \/
  process_env W "TYPES_PUBLISHER_CLIENT_SECRET" = None ->
  getSecret W secret = (Rejected ConfigurationError, []) /\
  Forall (fun e => isNetworkCall e = false) (snd (getSecret W secret)) /\
  forall W' : World,
    process_env W' = process_env W -> getSecret W' secret = getSecret W secret.
Proof.
  intros H.
  assert (getSecret W secret = (Rejected ConfigurationError, [])) as E.
  { guard_fires H. }
  split; [exact E |]. rewrite E. split; [constructor |].
  intros W' Henv. rewrite <- Henv in H. guard_fires H.
Qed.

Lemma unset_credentials_fail_before_any_request_witness :
  (envOf [("TYPES_PUBLISHER_CLIENT_ID", "id-1")] "TYPES_PUBLISHER_CLIENT_ID"
   = None \/
   envOf [("TYPES_PUBLISHER_CLIENT_ID", "id-1")] "TYPES_PUBLISHER_CLIENT_SECRET"
   = None) /\
  getSecret (sampleWorld (envOf [("TYPES_PUBLISHER_CLIENT_ID", "id-1")])
                         sampleVersions) GITHUB_SECRET
  = (Rejected ConfigurationError, []).
Proof.
  split; [right; reflexivity |].
  apply (proj1 (unset_credentials_fail_before_any_request
                  (sampleWorld (envOf [("TYPES_PUBLISHER_CLIENT_ID", "id-1")])
                               sampleVersions) GITHUB_SECRET
                  (or_intror eq_refl))).
Defined.

(** C8. A credential that is set to the empty string counts as unset: the
    call fails with the same configuration error, again with an empty
    trace. *)
Theorem empty_credentials_fail_like_unset (W : World) (secret : Secret) :
  process_env W "TYPES_PUBLISHER_CLIENT_ID" = Some "" \/
  process_env W "TYPES_PUBLISHER_CLIENT_SECRET" = Some "" ->
  getSecret W secret = (Rejected ConfigurationError, []) /\
  forall (W' : World) (secret' : Secret),
    process_env W' "TYPES_PUBLISHER_CLIENT_ID" = None \/
    process_env W' "TYPES_PUBLISHER_CLIENT_SECRET" = None ->
    getSecret W secret = getSecret W' secret'.
Proof.
  intros H.
  assert (getSecret W secret = (Rejected ConfigurationError, [])) as E.
  { guard_fires H. }
  split; [exact E |].
  intros W' secret' H'. rewrite E. symmetry. guard_fires H'.
Qed.

Lemma empty_credentials_fail_like_unset_witness :
  (emptySecretEnv "TYPES_PUBLISHER_CLIENT_ID" = Some "" \/
   emptySecretEnv "TYPES_PUBLISHER_CLIENT_SECRET" = Some "") /\
  getSecret (sampleWorld emptySecretEnv sampleVersions) NPM_TOKEN
  = (Rejected ConfigurationError, []).
Proof.
  split; [right; reflexivity |].
  apply (empty_credentials_fail_like_unset
           (sampleWorld emptySecretEnv sampleVersions) NPM_TOKEN).
  right. reflexivity.
Defined.

(** C4, as the module has it.  The credentials are read from the
    environment variables TYPES_PUBLISHER_CLIENT_ID and
    TYPES_PUBLISHER_CLIENT_SECRET.  Both are required: when either is absent
    the call fails with the configuration error; when both are there (and
    not empty) the client is built on the callback that holds exactly these
    two values; and no other variable of the environment has a say. *)
Theorem credentials_are_read_from_prefixed_variables (W : World)
  (secret : Secret) :
  (process_env W "TYPES_PUBLISHER_CLIENT_ID" = None \/
   process_env W "TYPES_PUBLISHER_CLIENT_SECRET" = None ->
   getSecret W secret = (Rejected ConfigurationError, [])) /\
  (forall clientId clientSecret : string,
     process_env W "TYPES_PUBLISHER_CLIENT_ID" = Some clientId ->
     process_env W "TYPES_PUBLISHER_CLIENT_SECRET" = Some clientSecret ->
     clientId <> "" -> clientSecret <> "" ->
     getSecret W secret
     = getLatest W
         (newKeyVaultClient W (authenticator W clientId clientSecret))
         secret) /\
  (forall env : string -> option string,
     env "TYPES_PUBLISHER_CLIENT_ID"
     = process_env W "TYPES_PUBLISHER_CLIENT_ID" ->
     env "TYPES_PUBLISHER_CLIENT_SECRET"
     = process_env W "TYPES_PUBLISHER_CLIENT_SECRET" ->
     getSecret (withEnv W env) secret = getSecret W secret).
Proof.
  split; [| split].
  - intros H. guard_fires H.
  - intros clientId clientSecret. apply getSecret_passes.
  - intros env. apply getSecret_reads_two_variables.
Qed.

Lemma credentials_are_read_from_prefixed_variables_witness :
  getSecret (sampleWorld (envOf []) sampleVersions) NPM_TOKEN
  = (Rejected ConfigurationError, []) /\
  getSecret (sampleWorld goodEnv sampleVersions) NPM_TOKEN
  = getLatest (sampleWorld goodEnv sampleVersions)
      (sampleClient sampleVersions) NPM_TOKEN.
Proof.
  split.
  - apply (proj1 (credentials_are_read_from_prefixed_variables
                    (sampleWorld (envOf []) sampleVersions) NPM_TOKEN)).
    left. reflexivity.
  - apply (proj1 (proj2 (credentials_are_read_from_prefixed_variables
                           (sampleWorld goodEnv sampleVersions) NPM_TOKEN))
                 "id-1" "s3cret");
      [reflexivity | reflexivity | discriminate | discriminate].
Defined.

(** C4 as stated fails.  With CLIENT_ID and CLIENT_SECRET set, and nothing
    else, the call fails with the configuration error; with these two
    absent and the prefixed variables set, it returns the secret. *)
Lemma unprefixed_variables_are_not_read :
  shortNamesEnv "CLIENT_ID" = Some "id-1" /\
  shortNamesEnv "CLIENT_SECRET" = Some "s3cret" /\
  getSecret (sampleWorld shortNamesEnv sampleVersions) NPM_TOKEN
  = (Rejected ConfigurationError, []) /\
  goodEnv "CLIENT_ID" = None /\
  goodEnv "CLIENT_SECRET" = None /\
  fst (getSecret (sampleWorld goodEnv sampleVersions) NPM_TOKEN)
  = Resolved "npm-token@v3".
Proof.
  repeat split; reflexivity.
Qed.

(** C7. On a challenge the callback asks the identity provider of the
    challenge for a token for the challenged resource, with the client
    identifier and secret, and answers with the token type, one space and
    the access token. *)
Theorem authenticator_answers_with_type_and_token (W : World)
  (clientId clientSecret : string) (challenge : Challenge)
  (tokenResponse : TokenResponse) :
  acquireTokenWithClientCredentials W
    (authorization challenge) (resource challenge) clientId clientSecret
  = inr tokenResponse ->
  authenticator W clientId clientSecret challenge
  = (Resolved tt,
     [ AcquireToken (authorization challenge) (resource challenge)
                    clientId clientSecret;
       ChallengeCallback
         (tokenType tokenResponse
          ++ String " " (accessToken tokenResponse)) ]).
Proof.
  intros H. unfold authenticator. simpl. now rewrite H.
Qed.

Lemma authenticator_answers_with_type_and_token_witness :
  authenticator (sampleWorld goodEnv sampleVersions) "id-1" "s3cret"
                sampleChallenge
  = (Resolved tt,
     [ AcquireToken "https://login.example/tenant" "https://vault.example"
                    "id-1" "s3cret";
       ChallengeCallback "Bearer abc" ]).
Proof.
  apply (authenticator_answers_with_type_and_token
           (sampleWorld goodEnv sampleVersions) "id-1" "s3cret"
           sampleChallenge {| tokenType := "Bearer"; accessToken := "abc" |}).
  reflexivity.
Defined.

(* ================================================================== *)
(** ** The versions *)

(** C2, as the module has it.  When the vault lists no version of the
    derived name, the call fails after the listing: reading [id] of
    [versions[0]], which is [undefined], raises the runtime's [TypeError].
    No value is asked for and none is returned. *)
Theorem no_versions_fail_with_type_error (W : World) (secret : Secret)
  (clientId clientSecret : string) :
  process_env W "TYPES_PUBLISHER_CLIENT_ID" = Some clientId ->
  process_env W "TYPES_PUBLISHER_CLIENT_SECRET" = Some clientSecret ->
  clientId <> "" -> clientSecret <> "" ->
  let client := newKeyVaultClient W (authenticator W clientId clientSecret) in
  KeyVaultClient.getSecretVersions client (azureKeyvault W)
                                   (derivedName secret) = inr [] ->
  getSecret W secret
  = (Rejected TypeError,
     [ ConsoleLog ("Getting versions for: " ++ derivedName secret);
       GetSecretVersions (azureKeyvault W) (derivedName secret);
       ConsoleLogVersions [] ]).
Proof.
  intros Hi Hs Ni Ns client Hlist.
  rewrite (getSecret_passes W secret clientId clientSecret Hi Hs Ni Ns).
  now apply getLatest_empty.
Qed.

Lemma no_versions_fail_with_type_error_witness :
  KeyVaultClient.getSecretVersions
    (newKeyVaultClient (sampleWorld goodEnv [])
       (authenticator (sampleWorld goodEnv []) "id-1" "s3cret"))
    "https://kv.example" (derivedName GITHUB_SECRET) = inr [] /\
  getSecret (sampleWorld goodEnv []) GITHUB_SECRET
  = (Rejected TypeError,
     [ ConsoleLog "Getting versions for: github-secret";
       GetSecretVersions "https://kv.example" "github-secret";
       ConsoleLogVersions [] ]).
Proof.
  split; [reflexivity |].
  apply (no_versions_fail_with_type_error
           (sampleWorld goodEnv []) GITHUB_SECRET "id-1" "s3cret");
    [reflexivity | reflexivity | discriminate | discriminate | reflexivity].
Defined.

(** C2 as stated fails.  With no version listed the call is rejected with
    the runtime's [TypeError]: not an error the module raises, and not one
    the vault hands over, so nothing in it says that the secret was not
    found. *)
Lemma no_versions_no_lookup_error :
  let run := getSecret (sampleWorld goodEnv []) NPM_TOKEN in
  fst run = Rejected TypeError /\
  (forall message, fst run <> Rejected (Error message)) /\
  (forall reason, fst run <> Rejected (Fault reason)).
Proof.
  repeat split; discriminate.
Qed.

(** C1. When the time stamps of the listed versions are pairwise distinct
    (and there is a version), the version whose value is asked for and
    returned is the one created last: every other listed version is
    older. *)
Theorem newest_version_is_selected (W : World) (secret : Secret)
  (clientId clientSecret : string) (versions : list SecretItem) :
  process_env W "TYPES_PUBLISHER_CLIENT_ID" = Some clientId ->
  process_env W "TYPES_PUBLISHER_CLIENT_SECRET" = Some clientSecret ->
  clientId <> "" -> clientSecret <> "" ->
  let client := newKeyVaultClient W (authenticator W clientId clientSecret) in
  KeyVaultClient.getSecretVersions client (azureKeyvault W)
                                   (derivedName secret) = inr versions ->
  versions <> [] ->
  NoDup (map (fun v => created (attributes v)) versions) ->
  exists newest : SecretItem,
    In newest versions /\
    (forall v, In v versions -> v <> newest ->
               (created (attributes v) < created (attributes newest))%Z) /\
    nth_error (JsArray.sort byCreatedDesc versions) 0 = Some newest /\
    getSecret W secret
    = (match KeyVaultClient.getSecret client (azureKeyvault W)
               (derivedName secret) (lastSegment (id newest)) with
       | inr bundle => Resolved (value bundle)
       | inl e => Rejected e
       end,
       [ ConsoleLog ("Getting versions for: " ++ derivedName secret);
         GetSecretVersions (azureKeyvault W) (derivedName secret);
         ConsoleLogVersions (JsArray.sort byCreatedDesc versions);
         GetSecret (azureKeyvault W) (derivedName secret)
                   (lastSegment (id newest)) ]).
Proof.
  intros Hi Hs Ni Ns client Hlist Hne Hdistinct.
  destruct (JsArray.sort byCreatedDesc versions) as [| newest rest] eqn:E.
  - apply JsArrayFacts.sort_nil_iff in E. contradiction.
  - destruct (JsArrayFacts.sort_head_newest versions newest rest E)
      as [Hin Hmax].
    exists newest. split; [exact Hin |]. split.
    + intros v Hv Hneq.
      apply (distinct_created_older versions); auto.
    + split; [reflexivity |].
      rewrite (getSecret_passes W secret clientId clientSecret Hi Hs Ni Ns).
      exact (getLatest_fetches W secret client versions newest rest Hlist E).
Qed.

Lemma sampleVersions_distinct :
  NoDup (map (fun v => created (attributes v)) sampleVersions).
Proof.
  repeat constructor; simpl; intuition discriminate.
Qed.

Lemma newest_version_is_selected_witness :
  exists newest : SecretItem,
    In newest sampleVersions /\
    created (attributes newest) = 300%Z /\
    getSecret (sampleWorld goodEnv sampleVersions) NPM_TOKEN
    = (Resolved "npm-token@v3",
       [ ConsoleLog "Getting versions for: npm-token";
         GetSecretVersions "https://kv.example" "npm-token";
         ConsoleLogVersions (JsArray.sort byCreatedDesc sampleVersions);
         GetSecret "https://kv.example" "npm-token" "v3" ]).
Proof.
  destruct (newest_version_is_selected
              (sampleWorld goodEnv sampleVersions) NPM_TOKEN "id-1" "s3cret"
              sampleVersions eq_refl eq_refl
              ltac:(discriminate) ltac:(discriminate) eq_refl
              ltac:(discriminate) sampleVersions_distinct)
    as [newest [Hin [Holder [Hfirst Hrun]]]].
  exists newest. split; [exact Hin |].
  injection Hfirst as <-. split; reflexivity.
Defined.

(** C6. The version asked for is the last path segment of the [id] of the
    selected version, that is what follows the last "/" of it: a piece
    without "/" such that the [id] is this piece, or ends in "/" and this
    piece.  When the listing is a version created at T1 whose [id] ends in
    "/v1" and a version created at T2 > T1 whose [id] ends in "/v2", version
    "v2" of the derived name is asked for, and its value is returned. *)
Theorem latest_version_is_fetched_by_last_segment (W : World)
  (secret : Secret) (clientId clientSecret : string)
  (versions : list SecretItem) :
  process_env W "TYPES_PUBLISHER_CLIENT_ID" = Some clientId ->
  process_env W "TYPES_PUBLISHER_CLIENT_SECRET" = Some clientSecret ->
  clientId <> "" -> clientSecret <> "" ->
  let client := newKeyVaultClient W (authenticator W clientId clientSecret) in
  KeyVaultClient.getSecretVersions client (azureKeyvault W)
                                   (derivedName secret) = inr versions ->
  versions <> [] ->
  exists (selected : SecretItem) (latest : string),
    nth_error (JsArray.sort byCreatedDesc versions) 0 = Some selected /\
    In selected versions /\
    (forall v, In v versions -> notNewer v selected) /\
    latest = lastSegment (id selected) /\
    JsString.occurs "/" latest = false /\
    (id selected = latest \/
     exists before : string, id selected = (before ++ String "/" latest)%string)
    /\
    getSecret W secret
    = (match KeyVaultClient.getSecret client (azureKeyvault W)
               (derivedName secret) latest with
       | inr bundle => Resolved (value bundle)
       | inl e => Rejected e
       end,
       [ ConsoleLog ("Getting versions for: " ++ derivedName secret);
         GetSecretVersions (azureKeyvault W) (derivedName secret);
         ConsoleLogVersions (JsArray.sort byCreatedDesc versions);
         GetSecret (azureKeyvault W) (derivedName secret) latest ]) /\
    (forall (before1 before2 : string) (T1 T2 : Z),
       versions
       = [ {| id := before1 ++ "/v1"; attributes := {| created := T1 |} |};
           {| id := before2 ++ "/v2"; attributes := {| created := T2 |} |} ] ->
       (T1 < T2)%Z ->
       latest = "v2").
Proof.
  intros Hi Hs Ni Ns client Hlist Hne.
  destruct (JsArray.sort byCreatedDesc versions) as [| selected rest] eqn:E.
  - apply JsArrayFacts.sort_nil_iff in E. contradiction.
  - destruct (JsArrayFacts.sort_head_newest versions selected rest E)
      as [Hin Hmax].
    destruct (JsStringFacts.last_split_cases "/" (id selected))
      as [Hpiece Hcases].
    exists selected, (lastSegment (id selected)).
    split; [reflexivity |]. split; [exact Hin |]. split; [exact Hmax |].
    split; [reflexivity |]. split; [exact Hpiece |]. split.
    + destruct Hcases as [[_ H] | H]; [left | right]; exact H.
    + split.
      * rewrite (getSecret_passes W secret clientId clientSecret Hi Hs Ni Ns).
        exact (getLatest_fetches W secret client versions selected rest
                 Hlist E).
      * intros before1 before2 T1 T2 -> Hlt.
        destruct Hin as [<- | [<- | []]].
        -- exfalso.
           assert (notNewer
                     {| id := before2 ++ "/v2";
                        attributes := {| created := T2 |} |}
                     {| id := before1 ++ "/v1";
                        attributes := {| created := T1 |} |}) as Hle
             by (apply Hmax; right; left; reflexivity).
           unfold notNewer in Hle. simpl in Hle. lia.
        -- unfold lastSegment. simpl id.
           apply (JsStringFacts.last_split_after "/" before2 "v2").
           reflexivity.
Qed.

Lemma latest_version_is_fetched_by_last_segment_witness :
  exists (selected : SecretItem) (latest : string),
    In selected sampleVersions /\
    id selected = "https://kv.example/secrets/npm-token/v3" /\
    latest = "v3" /\
    getSecret (sampleWorld goodEnv sampleVersions) NPM_TOKEN
    = (Resolved "npm-token@v3",
       [ ConsoleLog "Getting versions for: npm-token";
         GetSecretVersions "https://kv.example" "npm-token";
         ConsoleLogVersions (JsArray.sort byCreatedDesc sampleVersions);
         GetSecret "https://kv.example" "npm-token" latest ]).
Proof.
  destruct (latest_version_is_fetched_by_last_segment
              (sampleWorld goodEnv sampleVersions) NPM_TOKEN "id-1" "s3cret"
              sampleVersions eq_refl eq_refl
              ltac:(discriminate) ltac:(discriminate) eq_refl
              ltac:(discriminate))
    as [selected [latest [Hfirst [Hin [_ [Hlatest _]]]]]].
  exists selected, latest. split; [exact Hin |].
  injection Hfirst as <-. subst latest. repeat split.
Defined.

(* ================================================================== *)
(** ** Every run of [getSecret] *)

Lemma truthy_true (v : option string) :
  truthy v = true -> exists s, v = Some s /\ s <> "".
Proof.
  destruct v as [s |]; simpl; [| discriminate].
  intros H. exists s. split; [reflexivity |].
  apply negb_true_iff in H. now apply String.eqb_neq.
Qed.

Lemma truthy_false (v : option string) : truthy v = false <-> missing v.
Proof.
  unfold missing. destruct v as [s |]; simpl.
  - rewrite negb_false_iff, String.eqb_eq. split.
    + intros ->. now right.
    + intros [H | H]; [discriminate | now injection H].
  - split; auto.
Qed.

(** The four ways a run can go. *)
Lemma getSecret_cases (W : World) (secret : Secret) :
  ((missing (process_env W "TYPES_PUBLISHER_CLIENT_ID") \/
    missing (process_env W "TYPES_PUBLISHER_CLIENT_SECRET")) /\
   getSecret W secret = (Rejected ConfigurationError, []))
  \/
  exists clientId clientSecret : string,
    process_env W "TYPES_PUBLISHER_CLIENT_ID" = Some clientId /\
    process_env W "TYPES_PUBLISHER_CLIENT_SECRET" = Some clientSecret /\
    clientId <> "" /\ clientSecret <> "" /\
    let client :=
      newKeyVaultClient W (authenticator W clientId clientSecret) in
    let listing :=
      KeyVaultClient.getSecretVersions client (azureKeyvault W)
                                       (derivedName secret) in
    (exists e,
        listing = inl e /\
        getSecret W secret
        = (Rejected e,
           [ ConsoleLog ("Getting versions for: " ++ derivedName secret);
             GetSecretVersions (azureKeyvault W) (derivedName secret) ]))
    \/
    (listing = inr [] /\
     getSecret W secret
     = (Rejected TypeError,
        [ ConsoleLog ("Getting versions for: " ++ derivedName secret);
          GetSecretVersions (azureKeyvault W) (derivedName secret);
          ConsoleLogVersions [] ]))
    \/
    (exists (versions : list SecretItem) (selected : SecretItem)
            (rest : list SecretItem),
        listing = inr versions /\
        JsArray.sort byCreatedDesc versions = selected :: rest /\
        getSecret W secret
        = (match KeyVaultClient.getSecret client (azureKeyvault W)
                   (derivedName secret) (lastSegment (id selected)) with
           | inr bundle => Resolved (value bundle)
           | inl e => Rejected e
           end,
           [ ConsoleLog ("Getting versions for: " ++ derivedName secret);
             GetSecretVersions (azureKeyvault W) (derivedName secret);
             ConsoleLogVersions (selected :: rest);
             GetSecret (azureKeyvault W) (derivedName secret)
                       (lastSegment (id selected)) ])).
Proof.
  destruct (truthy (process_env W "TYPES_PUBLISHER_CLIENT_ID")) eqn:Ti.
  2:{ left. split; [left; now apply truthy_false |].
      apply getSecret_guarded. now left. }
  destruct (truthy (process_env W "TYPES_PUBLISHER_CLIENT_SECRET")) eqn:Ts.
  2:{ left. split; [right; now apply truthy_false |].
      apply getSecret_guarded. now right. }
  right.
  apply truthy_true in Ti as [clientId [Hi Ni]].
  apply truthy_true in Ts as [clientSecret [Hs Ns]].
  exists clientId, clientSecret.
  split; [exact Hi |]. split; [exact Hs |].
  split; [exact Ni |]. split; [exact Ns |].
  intros client listing.
  rewrite (getSecret_passes W secret clientId clientSecret Hi Hs Ni Ns).
  fold client.
  destruct listing as [e | versions] eqn:L; subst listing.
  - left. exists e. split; [reflexivity |].
    now apply getLatest_refused.
  - right.
    destruct (JsArray.sort byCreatedDesc versions) as [| selected rest] eqn:E.
    + left. apply JsArrayFacts.sort_nil_iff in E. subst versions.
      split; [reflexivity |]. now apply getLatest_empty.
    + right. exists versions, selected, rest.
      split; [reflexivity |]. split; [exact E |].
      exact (getLatest_fetches W secret client versions selected rest L E).
Qed.

(** X1. When the vault refuses the listing, the call is rejected with the
    error of the vault, as it is: after the announcement and the listing
    request, with no value request and nothing logged about versions. *)
Theorem refused_listing_is_passed_on (W : World) (secret : Secret)
  (clientId clientSecret : string) (e : Thrown) :
  process_env W "TYPES_PUBLISHER_CLIENT_ID" = Some clientId ->
  process_env W "TYPES_PUBLISHER_CLIENT_SECRET" = Some clientSecret ->
  clientId <> "" -> clientSecret <> "" ->
  let client := newKeyVaultClient W (authenticator W clientId clientSecret) in
  KeyVaultClient.getSecretVersions client (azureKeyvault W)
                                   (derivedName secret) = inl e ->
  getSecret W secret
  = (Rejected e,
     [ ConsoleLog ("Getting versions for: " ++ derivedName secret);
       GetSecretVersions (azureKeyvault W) (derivedName secret) ]).
Proof.
  intros Hi Hs Ni Ns client Hlist.
  rewrite (getSecret_passes W secret clientId clientSecret Hi Hs Ni Ns).
  now apply getLatest_refused.
Qed.

Lemma refused_listing_is_passed_on_witness :
  getSecret (sampleWorld strangerEnv sampleVersions) GITHUB_ACCESS_TOKEN
  = (Rejected (Fault "401"),
     [ ConsoleLog "Getting versions for: github-access-token";
       GetSecretVersions "https://kv.example" "github-access-token" ]).
Proof.
  apply (refused_listing_is_passed_on
           (sampleWorld strangerEnv sampleVersions) GITHUB_ACCESS_TOKEN
           "id-2" "s3cret" (Fault "401"));
    [reflexivity | reflexivity | discriminate | discriminate | reflexivity].
Defined.

(** X2. The call resolves only one way.  If it resolves with [v], then both
    credentials were set and not empty, the vault listed at least one
    version, the value request for the last segment of the [id] of the
    first version after the sort was answered, and [v] is the value of that
    answer; the call did exactly four things: announcement, listing request,
    log of the sorted versions, value request. *)
Theorem resolved_only_by_a_fetch (W : World) (secret : Secret) (v : string) :
  fst (getSecret W secret) = Resolved v ->
  exists (clientId clientSecret : string) (versions : list SecretItem)
         (selected : SecretItem) (rest : list SecretItem)
         (bundle : SecretBundle),
    process_env W "TYPES_PUBLISHER_CLIENT_ID" = Some clientId /\
    process_env W "TYPES_PUBLISHER_CLIENT_SECRET" = Some clientSecret /\
    clientId <> "" /\ clientSecret <> "" /\
    let client :=
      newKeyVaultClient W (authenticator W clientId clientSecret) in
    KeyVaultClient.getSecretVersions client (azureKeyvault W)
                                     (derivedName secret) = inr versions /\
    JsArray.sort byCreatedDesc versions = selected :: rest /\
    KeyVaultClient.getSecret client (azureKeyvault W) (derivedName secret)
                             (lastSegment (id selected)) = inr bundle /\
    v = value bundle /\
    snd (getSecret W secret)
    = [ ConsoleLog ("Getting versions for: " ++ derivedName secret);
        GetSecretVersions (azureKeyvault W) (derivedName secret);
        ConsoleLogVersions (selected :: rest);
        GetSecret (azureKeyvault W) (derivedName secret)
                  (lastSegment (id selected)) ].
Proof.
  intros Hv.
  destruct (getSecret_cases W secret)
    as [[_ E] | [clientId [clientSecret [Hi [Hs [Ni [Ns H]]]]]]].
  - rewrite E in Hv. discriminate.
  - cbv zeta in H.
    destruct H as [[e [_ E]] | [[_ E] | [versions [selected [rest [L [S E]]]]]]].
    + rewrite E in Hv. discriminate.
    + rewrite E in Hv. discriminate.
    + exists clientId, clientSecret, versions, selected, rest.
      destruct (KeyVaultClient.getSecret
                  (newKeyVaultClient W (authenticator W clientId clientSecret))
                  (azureKeyvault W) (derivedName secret)
                  (lastSegment (id selected))) as [e | bundle] eqn:F.
      * rewrite E in Hv. discriminate.
      * exists bundle. rewrite E in Hv |- *. simpl in Hv.
        injection Hv as <-. repeat split; assumption.
Qed.

Lemma resolved_only_by_a_fetch_witness :
  fst (getSecret (sampleWorld goodEnv sampleVersions) NPM_TOKEN)
  = Resolved "npm-token@v3" /\
  exists (selected : SecretItem) (rest : list SecretItem),
    snd (getSecret (sampleWorld goodEnv sampleVersions) NPM_TOKEN)
    = [ ConsoleLog "Getting versions for: npm-token";
        GetSecretVersions "https://kv.example" "npm-token";
        ConsoleLogVersions (selected :: rest);
        GetSecret "https://kv.example" "npm-token"
                  (lastSegment (id selected)) ].
Proof.
  split; [reflexivity |].
  destruct (resolved_only_by_a_fetch
              (sampleWorld goodEnv sampleVersions) NPM_TOKEN "npm-token@v3"
              eq_refl)
    as [_ [_ [_ [selected [rest [_ [_ [_ [_ [_ [_ [_ [_ [_ T]]]]]]]]]]]]]].
  exists selected, rest. exact T.
Defined.

(** The trace of a run is an initial part of the four steps. *)
Lemma getSecret_trace_shape (W : World) (secret : Secret) :
  exists (versions : list SecretItem) (version : string)
         (later : list Event),
    snd (getSecret W secret) ++ later
    = [ ConsoleLog ("Getting versions for: " ++ derivedName secret);
        GetSecretVersions (azureKeyvault W) (derivedName secret);
        ConsoleLogVersions versions;
        GetSecret (azureKeyvault W) (derivedName secret) version ].
Proof.
  destruct (getSecret_cases W secret)
    as [[_ E] | [clientId [clientSecret [_ [_ [_ [_ H]]]]]]].
  - rewrite E. exists [], EmptyString. eexists. reflexivity.
  - cbv zeta in H.
    destruct H
      as [[e [_ E]] | [[_ E] | [versions [selected [rest [_ [_ E]]]]]]];
      rewrite E; simpl snd.
    + exists [], EmptyString. eexists. reflexivity.
    + exists [], EmptyString. eexists. reflexivity.
    + exists (selected :: rest), (lastSegment (id selected)), [].
      reflexivity.
Qed.

(** The requests of a run. *)
Lemma getSecret_requests (W : World) (secret : Secret) (e : Event) :
  In e (snd (getSecret W secret)) -> isNetworkCall e = true ->
  e = GetSecretVersions (azureKeyvault W) (derivedName secret) \/
  exists version : string,
    e = GetSecret (azureKeyvault W) (derivedName secret) version.
Proof.
  destruct (getSecret_trace_shape W secret)
    as [versions [version [later Hshape]]].
  intros He Hnet.
  assert (In e (snd (getSecret W secret) ++ later)) as Hin
    by (apply in_or_app; now left).
  rewrite Hshape in Hin. simpl in Hin.
  destruct Hin as [<- | [<- | [<- | [<- | []]]]]; try discriminate.
  - now left.
  - right. now exists version.
Qed.

Lemma derivedName_injective (a b : Secret) :
  derivedName a = derivedName b -> a = b.
Proof.
  destruct a, b; intros H; try reflexivity; discriminate H.
Qed.

(** X3. Whatever the environment, the vault and the identity provider do,
    the trace of a call is an initial part of: announcement, listing
    request, log of the versions, value request.  So a call makes at most
    one listing request and at most one value request, the listing first,
    and both go to the configured vault under the derived name of the
    secret asked for: no other vault and no other secret is touched. *)
Theorem requests_stay_on_the_secret (W : World) (secret : Secret) :
  (exists (versions : list SecretItem) (version : string)
          (later : list Event),
      snd (getSecret W secret) ++ later
      = [ ConsoleLog ("Getting versions for: " ++ derivedName secret);
          GetSecretVersions (azureKeyvault W) (derivedName secret);
          ConsoleLogVersions versions;
          GetSecret (azureKeyvault W) (derivedName secret) version ]) /\
  (forall e : Event,
      In e (snd (getSecret W secret)) -> isNetworkCall e = true ->
      e = GetSecretVersions (azureKeyvault W) (derivedName secret) \/
      exists version : string,
        e = GetSecret (azureKeyvault W) (derivedName secret) version).
Proof.
  split.
  - apply getSecret_trace_shape.
  - intros e. apply getSecret_requests.
Qed.

(** X12. Calls for two different secrets never make the same request:
    whatever the worlds they run in, no listing or value request of the
    one is a request of the other. *)
Theorem different_secrets_different_requests (W W' : World) (a b : Secret)
  (e : Event) :
  a <> b ->
  isNetworkCall e = true ->
  In e (snd (getSecret W a)) ->
  ~ In e (snd (getSecret W' b)).
Proof.
  intros Hab Hnet Ha Hb. apply Hab, derivedName_injective.
  destruct (getSecret_requests W a e Ha Hnet) as [-> | [va ->]];
    destruct (getSecret_requests W' b _ Hb Hnet) as [E | [vb E]];
    congruence.
Qed.

Lemma different_secrets_different_requests_witness :
  In (GetSecretVersions "https://kv.example" "npm-token")
     (snd (getSecret (sampleWorld goodEnv sampleVersions) NPM_TOKEN)) /\
  ~ In (GetSecretVersions "https://kv.example" "npm-token")
       (snd (getSecret (sampleWorld goodEnv sampleVersions) GITHUB_SECRET)).
Proof.
  assert (In (GetSecretVersions "https://kv.example" "npm-token")
             (snd (getSecret (sampleWorld goodEnv sampleVersions) NPM_TOKEN)))
    as H by (simpl; tauto).
  split; [exact H |].
  apply (different_secrets_different_requests
           (sampleWorld goodEnv sampleVersions)
           (sampleWorld goodEnv sampleVersions) NPM_TOKEN GITHUB_SECRET
           (GetSecretVersions "https://kv.example" "npm-token"));
    [discriminate | reflexivity | exact H].
Defined.

(** X4. A call leaves no trace exactly when a credential is missing (unset
    or empty).  Otherwise it starts with the announcement of the derived
    name and the listing request, whatever the vault answers: with
    credentials the listing is always asked for, once. *)
Theorem silent_only_without_credentials (W : World) (secret : Secret) :
  (snd (getSecret W secret) = [] <->
   missing (process_env W "TYPES_PUBLISHER_CLIENT_ID") \/
   missing (process_env W "TYPES_PUBLISHER_CLIENT_SECRET")) /\
  (snd (getSecret W secret) <> [] ->
   exists later : list Event,
     snd (getSecret W secret)
     = ConsoleLog ("Getting versions for: " ++ derivedName secret)
       :: GetSecretVersions (azureKeyvault W) (derivedName secret)
       :: later /\
     Forall (fun e => forall vault name,
                 e <> GetSecretVersions vault name) later).
Proof.
  destruct (getSecret_cases W secret)
    as [[Hm E] | [clientId [clientSecret [Hi [Hs [Ni [Ns H]]]]]]].
  - rewrite E. simpl. split; [tauto | intros C; now destruct C].
  - assert (~ (missing (process_env W "TYPES_PUBLISHER_CLIENT_ID") \/
               missing (process_env W "TYPES_PUBLISHER_CLIENT_SECRET")))
      as Hpresent.
    { rewrite Hi, Hs. unfold missing.
      intros [[C | C] | [C | C]]; try discriminate; injection C; auto. }
    cbv zeta in H.
    destruct H
      as [[e [_ E]] | [[_ E] | [versions [selected [rest [_ [_ E]]]]]]];
      rewrite E; simpl snd;
      (split; [split; [discriminate | tauto] |]); intros _;
      eexists; (split; [reflexivity |]);
      repeat constructor; discriminate.
Qed.

(* ================================================================== *)
(** ** The callback, the sort and the version string *)



(** X6. The sort of line 66 neither drops nor adds a version, whatever the
    time stamps are, equal ones included, and it leaves the versions from
    the newest to the oldest: every version is at least as new as each one
    after it. *)
Theorem sort_keeps_versions_newest_first (versions : list SecretItem) :
  Permutation (JsArray.sort byCreatedDesc versions) versions /\
  List.length (JsArray.sort byCreatedDesc versions) = List.length versions /\
  StronglySorted (fun earlier later => notNewer later earlier)
                 (JsArray.sort byCreatedDesc versions).
Proof.
  pose proof (JsArrayFacts.sort_perm byCreatedDesc versions) as P.
  split; [exact P |]. split; [now apply Permutation_length |].
  apply JsArrayFacts.sort_descending.
Qed.

(** X7. When the time stamps are pairwise distinct, the order in which the
    vault lists the versions does not matter: every rearrangement of the
    listing sorts to the same array, so the same version is selected.  In
    particular sorting the sorted array changes nothing. *)
Theorem listing_order_does_not_matter (versions rearranged : list SecretItem) :
  NoDup (map (fun v => created (attributes v)) versions) ->
  Permutation rearranged versions ->
  JsArray.sort byCreatedDesc rearranged = JsArray.sort byCreatedDesc versions
  /\
  JsArray.sort byCreatedDesc (JsArray.sort byCreatedDesc versions)
  = JsArray.sort byCreatedDesc versions.
Proof.
  intros ND P.
  assert (forall l, Permutation l versions ->
                    JsArray.sort byCreatedDesc l
                    = JsArray.sort byCreatedDesc versions) as Hany.
  { intros l Pl. apply JsArrayFacts.sort_of_any_engine; [exact ND | |].
    - rewrite <- Pl. apply JsArrayFacts.sort_perm.
    - assert (forall a b,
                 In a l -> In b l -> a <> b ->
                 created (attributes a) <> created (attributes b)) as Hd.
      { intros a b Ha Hb Hab Heq.
        apply (Permutation_in _ Pl) in Ha, Hb.
        destruct (Z.le_ge_cases (created (attributes a))
                                (created (attributes b))) as [Hle | Hle].
        - pose proof (distinct_created_older versions a b ND Ha Hb Hab Hle).
          lia.
        - assert (b <> a) as Hba by congruence.
          pose proof (distinct_created_older versions b a ND Hb Ha Hba Hle).
          lia. }
      pose proof (JsArrayFacts.sort_descending l) as S.
      pose proof (JsArrayFacts.sort_perm byCreatedDesc l) as Ps.
      assert (NoDup (JsArray.sort byCreatedDesc l)) as NDs.
      { apply (Permutation_NoDup (Permutation_sym Ps)).
        apply (Permutation_NoDup (Permutation_sym Pl)).
        now apply NoDup_map_inv in ND. }
      assert (forall a b,
                 In a (JsArray.sort byCreatedDesc l) ->
                 In b (JsArray.sort byCreatedDesc l) -> a <> b ->
                 created (attributes a) <> created (attributes b)) as Hd'.
      { intros a b Ha Hb. apply Hd; now apply (Permutation_in _ Ps). }
      clear - S NDs Hd'.
      induction S as [| a rest S' IH Ha]; [constructor |].
      inversion NDs as [| ? ? Hnotin NDrest]; subst.
      constructor.
      + apply IH; [exact NDrest |].
        intros x y Hx Hy. apply Hd'; now right.
      + rewrite Forall_forall in Ha |- *. intros b Hb.
        specialize (Ha b Hb). unfold notNewer in Ha.
        assert (created (attributes a) <> created (attributes b)) as Hne.
        { apply Hd'; [now left | now right |].
          intros ->. contradiction. }
        unfold byCreatedDesc.
        destruct (created (attributes a) <? created (attributes b))%Z eqn:E;
          [apply Z.ltb_lt in E; lia | lia]. }
  split; [now apply Hany |].
  apply Hany, JsArrayFacts.sort_perm.
Qed.

Lemma listing_order_does_not_matter_witness :
  JsArray.sort byCreatedDesc (rev sampleVersions)
  = JsArray.sort byCreatedDesc sampleVersions.
Proof.
  apply (proj1 (listing_order_does_not_matter
                  sampleVersions (rev sampleVersions)
                  sampleVersions_distinct
                  (Permutation_sym (Permutation_rev sampleVersions)))).
Defined.

(** X8. The version string at the edges.  An [id] without "/" is its own
    version string; an [id] that ends in "/" gives the empty version
    string; only what follows the last "/" counts; and the version string
    of a version string is itself. *)
Theorem lastSegment_at_the_edges (id before : string) :
  (JsString.occurs "/" id = false -> lastSegment id = id) /\
  lastSegment (before ++ "/") = "" /\
  lastSegment (before ++ String "/" id) = lastSegment id /\
  lastSegment (lastSegment id) = lastSegment id.
Proof.
  unfold lastSegment. repeat split.
  - intros H. now rewrite (JsStringFacts.split_without _ _ H).
  - now apply (JsStringFacts.last_split_after "/" before "").
  - apply JsStringFacts.last_split_app.
  - destruct (JsStringFacts.last_split_cases "/" id) as [H _].
    simpl in H. now rewrite (JsStringFacts.split_without _ _ H).
Qed.

(* ================================================================== *)
(** ** Any enumeration without initializers *)

Lemma PropKey_eqb_eq (a b : PropKey) : PropKey_eqb a b = true <-> a = b.
Proof.
  destruct a as [i | s], b as [j | t]; simpl;
    try (split; [discriminate | intros H; discriminate H]).
  - rewrite N.eqb_eq. split; [now intros -> | now intros [= ->]].
  - rewrite String.eqb_eq. split; [now intros -> | now intros [= ->]].
Qed.

















(** X11. [allSecrets] lists exactly the numbers line 63 can name.  For a
    number in [allSecrets] the reverse lookup gives the name of the member
    with that number and the derived name is built; for every other number
    [Secret[secret]] is [undefined] and line 63 throws a [TypeError]. *)
Theorem allSecrets_are_the_numbers_with_a_name (n : Z) :
  (In n allSecrets ->
   exists member : Secret,
     Secret_value member = n /\
     azureSecretNameOf n = ret (derivedName member) /\
     azureSecretName member = azureSecretNameOf n) /\
  (~ In n allSecrets -> azureSecretNameOf n = throw TypeError).
Proof.
  split.
  - intros H. change allSecrets with (map Secret_value Secret_members) in H.
    apply in_map_iff in H as [member [<- _]].
    exists member. split; [reflexivity |].
    split; [| reflexivity].
    destruct member; reflexivity.
  - change allSecrets with [0; 1; 2; 3]%Z. intros H.
    destruct n as [| p | p].
    + exfalso. apply H. simpl. tauto.
    + destruct p as [[p | p |] | [p | p |] |]; try reflexivity;
        exfalso; apply H; simpl; tauto.
    + reflexivity.
Qed.
